(** * Link framing of the IEC 62056-21 transports (iec62056_21/transports.py)

    A shallow embedding of [BaseTransport.read], [BaseTransport.simple_read]
    and the open/closed behaviour of [SerialTransport] and [TcpTransport].

    Bytes are integers (a Python [bytes] object is a [list Z]); a call
    [self.recv(1)] is one [event]: it returns after [d] time units with the
    bytes the transport delivered (at most one, possibly none: a serial short
    read or a TCP orderly close gives [b""]), or the transport raises.
    [time.time()] is an explicit clock carried in the state. *)

From Stdlib Require Import String Ascii ZArith List Bool Lia.
Import ListNotations.
Local Open Scope Z_scope.

(** ** Byte strings *)

Definition bytes := list Z.

Fixpoint bytes_eqb (a b : bytes) : bool :=
  match a, b with
  | [], [] => true
  | x :: a', y :: b' => Z.eqb x y && bytes_eqb a' b'
  | _, _ => false
  end.

(** Python's [x in [b1, b2, ...]] on byte strings. *)
Definition py_in (b : bytes) (l : list bytes) : bool := existsb (bytes_eqb b) l.

(** Python's [x == y] on [Optional[bytes]]. *)
Definition opt_bytes_eqb (a b : option bytes) : bool :=
  match a, b with
  | Some x, Some y => bytes_eqb x y
  | None, None => true
  | _, _ => false
  end.

(** Python slices [s[:-k]] and [s[1:]]. *)
Definition drop_last (k : nat) (s : bytes) : bytes := firstn (length s - k) s.
Definition drop_first (s : bytes) : bytes := skipn 1 s.

(** ** Protocol constants and checksum unit *)

(** Modelled from the spec: [iec62056_21.constants] is not part of the
    sources. The spec names SOH (0x01), STX (0x02), ETX (0x03), EOT (0x04),
    single-byte ACK/NACK replies and the line-terminator bytes; the values
    below are the protocol's ACK (0x06), NACK (0x15) and CR LF. *)
Definition SOH : Z := 1.
Definition STX : Z := 2.
Definition ETX : Z := 3.
Definition EOT : Z := 4.
Definition ACK : bytes := [6].
Definition NACK : bytes := [21].
Definition LINE_END : bytes := [13; 10].

(** Modelled from the spec: [utils.calculate_bcc] is not part of the
    sources; the spec defines the BCC as the exclusive running accumulation
    (XOR) of the input bytes. *)
Definition calculate_bcc (data : bytes) : Z := fold_left Z.lxor data 0.

(** Modelled from the spec: [utils.bcc_valid] recomputes the BCC over all
    bytes except the last and compares it with the last byte. *)
Definition bcc_valid (message : bytes) : bool :=
  match rev message with
  | [] => false
  | c :: r => Z.eqb c (calculate_bcc (rev r))
  end.

(** Modelled from the spec: [utils.add_bcc] appends the BCC of its input. *)
Definition add_bcc (data : bytes) : bytes := data ++ [calculate_bcc data].

(** ** Receive events and outcomes *)

Inductive event :=
| Recv (d : Z) (b : bytes)   (* [self.recv(1)] returned [b] after [d] *)
| RecvErr (d : Z).           (* [self.recv(1)] raised [TransportError] *)

Inductive outcome :=
| Ok (data : bytes)          (* the call returned [data] *)
| ErrTimeout                 (* [TimeoutError] *)
| ErrTransport               (* [TransportError] raised by [recv] *)
| Blocked.                   (* still waiting: the input ran out *)

Record transport := Transport { tr_timeout : Z }.

(** [timeout = timeout or self.timeout] *)
Definition py_or_timeout (timeout : option Z) (dflt : Z) : Z :=
  match timeout with
  | Some t => if Z.eqb t 0 then dflt else t
  | None => dflt
  end.

(** ** [BaseTransport.read] *)

Inductive phase := Scanning | AwaitBcc.

(** The local variables of [read], the clock, and the bytes sent. *)
Record rstate := RState {
  total_data : bytes;
  packets : Z;
  start_char_received : bool;
  start_char : option bytes;
  end_char : option bytes;
  in_data : bytes;
  start_time : Z;
  now : Z;
  ph : phase;
  sent : list bytes }.

Inductive final := Fin (o : outcome) (snt : list bytes).

Definition start_chars : list bytes := [[SOH]; [STX]].
Definition end_chars : list bytes := [[ETX]; [EOT]].

Definition set_scan (s : rstate) (idata : bytes) (scr : bool) (sc : option bytes)
  (t : Z) : rstate :=
  RState (total_data s) (packets s) scr sc (end_char s) idata (start_time s) t
    Scanning (sent s).

(** The inner loop has just seen an end byte: [break], then [packets += 1]. *)
Definition set_end (s : rstate) (idata : bytes) (ec : bytes) (t : Z) : rstate :=
  RState (total_data s) (packets s + 1) (start_char_received s) (start_char s)
    (Some ec) idata (start_time s) t AwaitBcc (sent s).

Definition set_bcc (s : rstate) (idata : bytes) (t : Z) : rstate :=
  RState (total_data s) (packets s) (start_char_received s) (start_char s)
    (end_char s) idata (start_time s) t AwaitBcc (sent s).

(** [self.send(data)] on an open transport. *)
Definition do_send (s : rstate) (data : bytes) : rstate :=
  RState (total_data s) (packets s) (start_char_received s) (start_char s)
    (end_char s) (in_data s) (start_time s) (now s) (ph s) (sent s ++ [data]).

Definition set_total (s : rstate) (tot : bytes) : rstate :=
  RState tot (packets s) (start_char_received s) (start_char s)
    (end_char s) (in_data s) (start_time s) (now s) (ph s) (sent s).

(** Top of the outer [while True]: [in_data = b""], [start_time = time.time()]. *)
Definition next_block (s : rstate) : rstate :=
  RState (total_data s) (packets s) (start_char_received s) (start_char s)
    (end_char s) [] (now s) (now s) Scanning (sent s).

(** Lines 88-131, once the BCC byte has been appended to [in_data]. *)
Definition after_block (s : rstate) : rstate + final :=
  if opt_bytes_eqb (start_char s) (Some [SOH]) then
    inr (Fin (Ok (total_data s ++ in_data s)) (sent s))
  else if opt_bytes_eqb (end_char s) (Some [EOT]) then
    if negb (bcc_valid (in_data s)) then inl (next_block (do_send s NACK))
    else
      let s1 := do_send s ACK in
      let d1 := drop_last 2 (in_data s) ++ LINE_END in
      let d2 := if packets s >? 1 then drop_first d1 else d1 in
      inl (next_block (set_total s1 (total_data s1 ++ d2)))
  else if opt_bytes_eqb (end_char s) (Some [ETX]) then
    if negb (bcc_valid (in_data s)) then inl (next_block (do_send s NACK))
    else
      let d := if packets s >? 1 then drop_first (in_data s) else in_data s in
      let tot := total_data s ++ d in
      let tot := if packets s >? 1 then add_bcc (drop_last 1 tot) else tot in
      inr (Fin (Ok tot) (sent s))
  else inl (next_block s).

(** One [self.recv(1)] call and the code that runs until the next one.
    [to] is the bound the code compares the duration with: [self.timeout]. *)
Definition step (to : Z) (s : rstate) (e : event) : rstate + final :=
  match e with
  | RecvErr _ => inr (Fin ErrTransport (sent s))
  | Recv d b =>
    let t := now s + d in
    match ph s with
    | Scanning =>
      if t - start_time s >? to then inr (Fin ErrTimeout (sent s))
      else if negb (start_char_received s) then
        if py_in b start_chars then inl (set_scan s (in_data s ++ b) true (Some b) t)
        else inl (set_scan s (in_data s) false (start_char s) t)
      else if py_in b end_chars then inl (set_end s (in_data s ++ b) b t)
      else inl (set_scan s (in_data s ++ b) true (start_char s) t)
    | AwaitBcc => after_block (set_bcc s (in_data s ++ b) t)
    end
  end.

Fixpoint run (to : Z) (s : rstate) (evs : list event) : final * list event :=
  match evs with
  | [] => (Fin Blocked (sent s), [])
  | e :: evs' =>
    match step to s e with
    | inl s' => run to s' evs'
    | inr f => (f, evs')
    end
  end.

Definition read_init (t0 : Z) : rstate :=
  RState [] 0 false None None [] t0 t0 Scanning [].

(** [read(timeout)] started at time [t0] on the receive events [evs]; the
    result and the events left unconsumed. The local [timeout] is computed
    as in the source, and, as in the source, the loop compares the elapsed
    time with [self.timeout]. *)
Definition read (self : transport) (timeout : option Z) (t0 : Z)
  (evs : list event) : final * list event :=
  let timeout := py_or_timeout timeout (tr_timeout self) in
  run (tr_timeout self) (read_init t0) evs.

(** ** [BaseTransport.simple_read] *)

Inductive str_or_bytes := PyStr (s : string) | PyBytes (b : bytes).

(** Modelled from the spec: [utils.ensure_bytes] is not part of the sources;
    a start or end given as a character is taken as the byte of that
    character in the text encoding, a byte string is kept as it is. *)
Definition ensure_bytes (x : str_or_bytes) : bytes :=
  match x with
  | PyStr s => map (fun c => Z.of_nat (nat_of_ascii c)) (list_ascii_of_string s)
  | PyBytes b => b
  end.

(** The [while True] loop of [simple_read]: [to] is [self.timeout],
    [st] is [start_time], [t] the clock. *)
Fixpoint simple_loop (to st : Z) (sc ec : bytes) (idata : bytes) (scr : bool)
  (t : Z) (evs : list event) : outcome * list event :=
  match evs with
  | [] => (Blocked, [])
  | RecvErr _ :: evs' => (ErrTransport, evs')
  | Recv d b :: evs' =>
    let t' := t + d in
    if t' - st >? to then (ErrTimeout, evs')
    else if negb scr then
      if bytes_eqb b sc then simple_loop to st sc ec (idata ++ b) true t' evs'
      else simple_loop to st sc ec idata false t' evs'
    else if bytes_eqb b ec then (Ok (idata ++ b), evs')
    else simple_loop to st sc ec (idata ++ b) true t' evs'
  end.

Definition simple_read (self : transport) (start_char end_char : str_or_bytes)
  (timeout : option Z) (t0 : Z) (evs : list event) : outcome * list event :=
  let _start_char := ensure_bytes start_char in
  let _end_char := ensure_bytes end_char in
  let timeout := py_or_timeout timeout (tr_timeout self) in
  simple_loop (tr_timeout self) t0 _start_char _end_char [] false t0 evs.

(** ** [SerialTransport] and [TcpTransport] *)

Module Transports.

Inductive exn := TransportError | SerialException.

Inductive pyres (A : Type) := PyOk (a : A) | PyRaise (e : exn).
Arguments PyOk {A} a.
Arguments PyRaise {A} e.

(** What [socket.recv] does: deliver bytes, time out, or fail. *)
Inductive sock_result := SockData (b : bytes) | SockTimeout | SockOSError.

(** Calls made on the underlying [serial.Serial] / [socket.socket]. *)
Inductive io_action :=
| SerialOpen (port_name : string) (baud timeout : Z)
| SerialWrite (data : bytes)
| SerialFlush
| SerialRead (n : Z)
| SerialClose
| SockSendall (data : bytes)
| SockRecv (n : Z)
| SockClose.

(** The devices: the calls made so far and what they will deliver next.
    With no data pending, [serial.Serial.read] returns [b""] after its own
    timeout and [socket.recv] raises [socket.timeout]. [serial_opens] holds
    the outcomes of the next [serial.Serial(...)] constructions ([true]: the
    port opens; [false]: [SerialException], e.g. the port is still held);
    with no outcome left, the open fails. *)
Record world := World {
  io : list io_action;
  rx_serial : list bytes;
  rx_sock : list sock_result;
  serial_opens : list bool }.

Definition log_io (w : world) (a : io_action) : world :=
  World (io w ++ [a]) (rx_serial w) (rx_sock w) (serial_opens w).

(** The operations every transport provides (the methods [BaseTransport]
    leaves to its subclasses). *)
Class TransportOps (T : Type) := {
  disconnect : T -> world -> pyres unit * T * world;
  _send : T -> bytes -> world -> pyres unit * T * world;
  _recv : T -> Z -> world -> pyres bytes * T * world;
  switch_baudrate : T -> Z -> world -> pyres unit * T * world }.

(** [BaseTransport.send] and [BaseTransport.recv] (logging omitted). *)
Definition send {T} `{TransportOps T} (self : T) (data : bytes) (w : world) :=
  _send self data w.
Definition recv {T} `{TransportOps T} (self : T) (chars : Z) (w : world) :=
  _recv self chars w.

Record serial_port := SerialPort { sp_baud : Z; sp_timeout : Z }.

Record serial_transport := SerialTransport {
  port_name : string;
  st_timeout : Z;
  port : option serial_port }.

Definition set_port (self : serial_transport) (p : option serial_port) :=
  SerialTransport (port_name self) (st_timeout self) p.

Definition serial_disconnect (self : serial_transport) (w : world) :=
  match port self with
  | None => (PyRaise TransportError, self, w)
  | Some _ => (PyOk tt, set_port self None, log_io w SerialClose)
  end.

Definition serial__send (self : serial_transport) (data : bytes) (w : world) :=
  match port self with
  | None => (PyRaise TransportError, self, w)
  | Some _ => (PyOk tt, self, log_io (log_io w (SerialWrite data)) SerialFlush)
  end.

Definition serial__recv (self : serial_transport) (chars : Z) (w : world) :=
  match port self with
  | None => (PyRaise TransportError, self, w)
  | Some _ =>
    let w' := log_io w (SerialRead chars) in
    match rx_serial w' with
    | [] => (PyOk [], self, w')
    | b :: rest => (PyOk b, self, World (io w') rest (rx_sock w') (serial_opens w'))
    end
  end.

(** A new [serial.Serial] is opened at [baud] with [timeout=self.timeout]
    and replaces the port; the old one is not closed. If the constructor
    raises, the exception propagates and [self.port] is left as it was. *)
Definition serial_switch_baudrate (self : serial_transport) (baud : Z) (w : world) :=
  match port self with
  | None => (PyRaise TransportError, self, w)
  | Some _ =>
    let w' := log_io w (SerialOpen (port_name self) baud (st_timeout self)) in
    match serial_opens w' with
    | true :: rest =>
      (PyOk tt, set_port self (Some (SerialPort baud (st_timeout self))),
       World (io w') (rx_serial w') (rx_sock w') rest)
    | false :: rest =>
      (PyRaise SerialException, self, World (io w') (rx_serial w') (rx_sock w') rest)
    | [] => (PyRaise SerialException, self, w')
    end
  end.

#[global] Instance SerialOps : TransportOps serial_transport := {
  disconnect := serial_disconnect;
  _send := serial__send;
  _recv := serial__recv;
  switch_baudrate := serial_switch_baudrate }.

Record socket_handle := SocketHandle { sock_timeout : Z }.

Record tcp_transport := TcpTransport {
  address : string * Z;
  tt_timeout : Z;
  socket : option socket_handle }.

Definition set_socket (self : tcp_transport) (s : option socket_handle) :=
  TcpTransport (address self) (tt_timeout self) s.

Definition tcp_disconnect (self : tcp_transport) (w : world) :=
  match socket self with
  | None => (PyRaise TransportError, self, w)
  | Some _ => (PyOk tt, set_socket self None, log_io w SockClose)
  end.

Definition tcp__send (self : tcp_transport) (data : bytes) (w : world) :=
  match socket self with
  | None => (PyRaise TransportError, self, w)
  | Some _ => (PyOk tt, self, log_io w (SockSendall data))
  end.

(** [socket.timeout] and [OSError] are both re-raised as [TransportError]. *)
Definition tcp__recv (self : tcp_transport) (chars : Z) (w : world) :=
  match socket self with
  | None => (PyRaise TransportError, self, w)
  | Some _ =>
    let w' := log_io w (SockRecv chars) in
    match rx_sock w' with
    | [] => (PyRaise TransportError, self, w')
    | r :: rest =>
      let w'' := World (io w') (rx_serial w') rest (serial_opens w') in
      match r with
      | SockData b => (PyOk b, self, w'')
      | SockTimeout | SockOSError => (PyRaise TransportError, self, w'')
      end
    end
  end.

Definition tcp_switch_baudrate (self : tcp_transport) (baud : Z) (w : world) :=
  (@PyOk unit tt, self, w).

#[global] Instance TcpOps : TransportOps tcp_transport := {
  disconnect := tcp_disconnect;
  _send := tcp__send;
  _recv := tcp__recv;
  switch_baudrate := tcp_switch_baudrate }.

End Transports.

(** ** Test inputs *)

Definition timed (d : Z) (bs : bytes) : list event := map (fun x => Recv d [x]) bs.

Definition ascii_bytes (s : string) : bytes := ensure_bytes (PyStr s).

Example read_single_block_example :
  read (Transport 30) None 0 (timed 0 [9; STX; 65; ETX; calculate_bcc [STX; 65; ETX]])
  = (Fin (Ok [STX; 65; ETX; calculate_bcc [STX; 65; ETX]]) [], []).
Proof. reflexivity. Qed.

Example simple_read_demo :
  simple_read (Transport 30) (PyStr "/") (PyStr "!") None 0
    (timed 0 (ascii_bytes "junk/hello!more"))
  = (Ok (ascii_bytes "/hello!"), timed 0 (ascii_bytes "more")).
Proof. reflexivity. Qed.

(** ** Blocks on the line *)

(** Received bytes with the time each [recv(1)] took: [(delay, byte)]. *)
Definition tevs (tb : list (Z * Z)) : list event :=
  map (fun p => Recv (fst p) [snd p]) tb.
Definition tbytes (tb : list (Z * Z)) : bytes := map snd tb.
Definition tdelay (tb : list (Z * Z)) : Z := fold_right (fun p acc => fst p + acc) 0 tb.

Definition is_start (x : Z) : bool := py_in [x] start_chars.
Definition is_end (x : Z) : bool := py_in [x] end_chars.

(** A framed block as it arrives: start byte, payload, end byte, BCC. *)
Record block := Block {
  b_start : Z * Z;
  b_payload : list (Z * Z);
  b_end : Z * Z;
  b_bcc : Z * Z }.

Definition block_events (b : block) : list event :=
  tevs (b_start b :: b_payload b) ++
  [Recv (fst (b_end b)) [snd (b_end b)]; Recv (fst (b_bcc b)) [snd (b_bcc b)]].

Definition block_bytes (b : block) : bytes :=
  snd (b_start b) :: tbytes (b_payload b) ++ [snd (b_end b); snd (b_bcc b)].

(** Time spent in the inner loop of [read] for this block (start byte
    through end byte); the BCC byte is read after the loop. *)
Definition block_wait (b : block) : Z :=
  fst (b_start b) + tdelay (b_payload b) + fst (b_end b).

Definition block_delays_nonneg (b : block) : Prop :=
  Forall (fun p => 0 <= fst p) (b_start b :: b_payload b ++ [b_end b]).

Definition payload_ok (b : block) : Prop :=
  Forall (fun p => is_end (snd p) = false) (b_payload b).

(** The iterations of [read]: every [recv(1)] that does not end the call. *)
Fixpoint steps (to : Z) (s : rstate) (evs : list event) : rstate + final :=
  match evs with
  | [] => inl s
  | e :: evs' =>
    match step to s e with
    | inl s' => steps to s' evs'
    | inr f => inr f
    end
  end.

(** ** Properties of the checksum unit and the slices *)

Lemma bcc_valid_add_bcc (d : bytes) : bcc_valid (add_bcc d) = true.
Proof.
  unfold bcc_valid, add_bcc. rewrite rev_app_distr. simpl.
  rewrite rev_involutive. apply Z.eqb_refl.
Qed.

Lemma bcc_valid_snoc (d : bytes) (c : Z) :
  bcc_valid (d ++ [c]) = Z.eqb c (calculate_bcc d).
Proof.
  unfold bcc_valid. rewrite rev_app_distr. simpl. now rewrite rev_involutive.
Qed.

Lemma drop_last_app (l1 l2 : bytes) : drop_last (length l2) (l1 ++ l2) = l1.
Proof.
  unfold drop_last. rewrite length_app, Nat.add_sub.
  rewrite firstn_app, Nat.sub_diag, firstn_O, app_nil_r.
  apply firstn_all.
Qed.

Lemma is_end_false_not_in (x : Z) : is_end x = false -> py_in [x] end_chars = false.
Proof. auto. Qed.

(** ** Running [read] piecewise *)

Lemma run_steps (to : Z) (s s' : rstate) (evs1 evs2 : list event) :
  steps to s evs1 = inl s' -> run to s (evs1 ++ evs2) = run to s' evs2.
Proof.
  revert s. induction evs1 as [|e evs1 IH]; intros s H; simpl in *.
  - now inversion H.
  - destruct (step to s e); [now apply IH | discriminate].
Qed.

Lemma steps_app (to : Z) (s s' : rstate) (evs1 evs2 : list event) :
  steps to s evs1 = inl s' -> steps to s (evs1 ++ evs2) = steps to s' evs2.
Proof.
  revert s. induction evs1 as [|e evs1 IH]; intros s H; simpl in *.
  - now inversion H.
  - destruct (step to s e); [now apply IH | discriminate].
Qed.

Ltac no_timeout :=
  match goal with
  | |- context [?a >? ?b] =>
    replace (a >? b) with false by (symmetry; rewrite Z.gtb_ltb; apply Z.ltb_ge; lia)
  end.

(** Single iterations of the inner loop. *)
Lemma step_in_block (to : Z) tot pk sc ec idata st t snt d x :
  is_end x = false -> t + d - st <= to ->
  step to (RState tot pk true sc ec idata st t Scanning snt) (Recv d [x])
  = inl (RState tot pk true sc ec (idata ++ [x]) st (t + d) Scanning snt).
Proof.
  intros Hx Ht. unfold step; cbn [ph now start_time start_char_received negb].
  no_timeout. unfold is_end in Hx. now rewrite Hx.
Qed.

Lemma step_junk (to : Z) tot pk sc ec idata st t snt d x :
  is_start x = false -> t + d - st <= to ->
  step to (RState tot pk false sc ec idata st t Scanning snt) (Recv d [x])
  = inl (RState tot pk false sc ec idata st (t + d) Scanning snt).
Proof.
  intros Hx Ht. unfold step; cbn [ph now start_time start_char_received negb].
  no_timeout. unfold is_start in Hx. now rewrite Hx.
Qed.

Lemma step_start (to : Z) tot pk sc ec idata st t snt d x :
  is_start x = true -> t + d - st <= to ->
  step to (RState tot pk false sc ec idata st t Scanning snt) (Recv d [x])
  = inl (RState tot pk true (Some [x]) ec (idata ++ [x]) st (t + d) Scanning snt).
Proof.
  intros Hx Ht. unfold step; cbn [ph now start_time start_char_received negb].
  no_timeout. unfold is_start in Hx. now rewrite Hx.
Qed.

Lemma step_end (to : Z) tot pk sc ec idata st t snt d x :
  is_end x = true -> t + d - st <= to ->
  step to (RState tot pk true sc ec idata st t Scanning snt) (Recv d [x])
  = inl (RState tot (pk + 1) true sc (Some [x]) (idata ++ [x]) st (t + d) AwaitBcc snt).
Proof.
  intros Hx Ht. unfold step; cbn [ph now start_time start_char_received negb].
  no_timeout. unfold is_end in Hx. now rewrite Hx.
Qed.

Lemma step_bcc (to : Z) tot pk scr sc ec idata st t snt d b :
  step to (RState tot pk scr sc ec idata st t AwaitBcc snt) (Recv d b)
  = after_block (RState tot pk scr sc ec (idata ++ b) st (t + d) AwaitBcc snt).
Proof. reflexivity. Qed.

Lemma tdelay_cons (p : Z * Z) (tb : list (Z * Z)) : tdelay (p :: tb) = fst p + tdelay tb.
Proof. reflexivity. Qed.

Lemma tdelay_nonneg (tb : list (Z * Z)) :
  Forall (fun p => 0 <= fst p) tb -> 0 <= tdelay tb.
Proof. induction 1; simpl; lia. Qed.

(** Inside a block: bytes that are not end bytes are appended. *)
Lemma steps_payload (to : Z) tot pk sc ec idata st t snt tb :
  Forall (fun p => 0 <= fst p) tb ->
  Forall (fun p => is_end (snd p) = false) tb ->
  t - st + tdelay tb <= to ->
  steps to (RState tot pk true sc ec idata st t Scanning snt) (tevs tb)
  = inl (RState tot pk true sc ec (idata ++ tbytes tb) st (t + tdelay tb) Scanning snt).
Proof.
  revert idata t. induction tb as [|[d x] tb IH]; intros idata t Hnn Hne Ht.
  - simpl. now rewrite app_nil_r, Z.add_0_r.
  - inversion Hnn as [|? ? Hd Hnn']; inversion Hne as [|? ? Hx Hne']; subst.
    rewrite tdelay_cons in Ht |- *. cbn [fst snd] in Hd, Hx, Ht |- *.
    pose proof (tdelay_nonneg _ Hnn').
    cbn [tevs map steps fst snd]. rewrite step_in_block by (auto; lia).
    fold (tevs tb). rewrite IH by (auto; lia).
    cbn [tbytes map snd]. fold (tbytes tb).
    f_equal. f_equal; [now rewrite <- app_assoc | lia].
Qed.

(** Before the first start byte: bytes outside the start set are dropped. *)
Lemma steps_junk (to : Z) tot pk sc ec idata st t snt tb :
  Forall (fun p => 0 <= fst p) tb ->
  Forall (fun p => is_start (snd p) = false) tb ->
  t - st + tdelay tb <= to ->
  steps to (RState tot pk false sc ec idata st t Scanning snt) (tevs tb)
  = inl (RState tot pk false sc ec idata st (t + tdelay tb) Scanning snt).
Proof.
  revert t. induction tb as [|[d x] tb IH]; intros t Hnn Hns Ht.
  - simpl. now rewrite Z.add_0_r.
  - inversion Hnn as [|? ? Hd Hnn']; inversion Hns as [|? ? Hx Hns']; subst.
    rewrite tdelay_cons in Ht |- *. cbn [fst snd] in Hd, Hx, Ht |- *.
    pose proof (tdelay_nonneg _ Hnn').
    cbn [tevs map steps fst snd]. rewrite step_junk by (auto; lia).
    fold (tevs tb). rewrite IH by (auto; lia).
    f_equal. f_equal. lia.
Qed.

(** ** The decision taken after a block *)

Lemma after_block_soh tot pk scr ec idata st t snt :
  after_block (RState tot pk scr (Some [SOH]) ec idata st t AwaitBcc snt)
  = inr (Fin (Ok (tot ++ idata)) snt).
Proof. reflexivity. Qed.

Lemma after_block_eot_ok tot pk scr sc idata st t snt :
  opt_bytes_eqb sc (Some [SOH]) = false -> bcc_valid idata = true ->
  after_block (RState tot pk scr sc (Some [EOT]) idata st t AwaitBcc snt)
  = inl (RState (tot ++ (if pk >? 1 then drop_first (drop_last 2 idata ++ LINE_END)
                         else drop_last 2 idata ++ LINE_END))
           pk scr sc (Some [EOT]) [] t t Scanning (snt ++ [ACK])).
Proof. intros Hs Hv. unfold after_block; simpl. now rewrite Hs, Hv. Qed.

Lemma after_block_etx_ok tot pk scr sc idata st t snt :
  opt_bytes_eqb sc (Some [SOH]) = false -> bcc_valid idata = true ->
  after_block (RState tot pk scr sc (Some [ETX]) idata st t AwaitBcc snt)
  = inr (Fin (Ok (if pk >? 1 then add_bcc (drop_last 1 (tot ++ drop_first idata))
                  else tot ++ idata)) snt).
Proof.
  intros Hs Hv. unfold after_block; simpl. rewrite Hs, Hv; simpl.
  now destruct (pk >? 1).
Qed.

Lemma after_block_nack tot pk scr sc ec idata st t snt :
  opt_bytes_eqb sc (Some [SOH]) = false -> bcc_valid idata = false ->
  ec = Some [EOT] \/ ec = Some [ETX] ->
  after_block (RState tot pk scr sc ec idata st t AwaitBcc snt)
  = inl (RState tot pk scr sc ec [] t t Scanning (snt ++ [NACK])).
Proof.
  intros Hs Hv [-> | ->]; unfold after_block; simpl; now rewrite Hs, Hv.
Qed.

(** ** Whole blocks *)

Definition run_after (to : Z) (x : rstate + final) (rest : list event) :=
  match x with
  | inl s' => run to s' rest
  | inr f => (f, rest)
  end.

Lemma run_cons (to : Z) (s : rstate) (e : event) (rest : list event) :
  run to s (e :: rest) = run_after to (step to s e) rest.
Proof. reflexivity. Qed.

Lemma block_bytes_eq (b : block) :
  block_bytes b = (snd (b_start b) :: tbytes (b_payload b)) ++ [snd (b_end b); snd (b_bcc b)].
Proof. reflexivity. Qed.

Lemma nonneg_split (b : block) :
  block_delays_nonneg b ->
  0 <= fst (b_start b) /\ Forall (fun p => 0 <= fst p) (b_payload b) /\ 0 <= fst (b_end b).
Proof.
  unfold block_delays_nonneg. intros H. inversion H as [|? ? H1 H2]; subst.
  apply Forall_app in H2 as [H2 H3]. inversion H3. auto.
Qed.

(** A block of a later iteration: the start flag is already set, so the
    block's first byte is appended like any other byte. *)
Lemma run_block_later (to : Z) tot pk sc ec t snt (b : block) rest :
  is_end (snd (b_start b)) = false -> payload_ok b -> is_end (snd (b_end b)) = true ->
  block_delays_nonneg b -> block_wait b <= to ->
  run to (RState tot pk true sc ec [] t t Scanning snt) (block_events b ++ rest)
  = run_after to
      (after_block (RState tot (pk + 1) true sc (Some [snd (b_end b)]) (block_bytes b)
                     t (t + block_wait b + fst (b_bcc b)) AwaitBcc snt)) rest.
Proof.
  intros Hs Hp He Hn Hw. apply nonneg_split in Hn as (Hn1 & Hn2 & Hn3).
  unfold block_events, block_wait in *. rewrite <- app_assoc.
  erewrite run_steps.
  2:{ apply steps_payload; [constructor; auto | constructor; auto |].
      rewrite tdelay_cons. simpl fst. lia. }
  rewrite tdelay_cons. cbn [app]. rewrite run_cons, step_end by (auto; lia).
  cbn [run_after]. rewrite run_cons, step_bcc. rewrite block_bytes_eq.
  unfold block_wait. rewrite <- !app_assoc. cbn [app].
  do 3 f_equal. lia.
Qed.

(** The first block of a call: bytes outside the start set are dropped,
    then the start byte is recorded. *)
Lemma run_block_first (to : Z) tot pk sc ec t snt junk (b : block) rest :
  Forall (fun p => 0 <= fst p) junk -> Forall (fun p => is_start (snd p) = false) junk ->
  is_start (snd (b_start b)) = true -> payload_ok b -> is_end (snd (b_end b)) = true ->
  block_delays_nonneg b -> tdelay junk + block_wait b <= to ->
  run to (RState tot pk false sc ec [] t t Scanning snt) (tevs junk ++ block_events b ++ rest)
  = run_after to
      (after_block (RState tot (pk + 1) true (Some [snd (b_start b)]) (Some [snd (b_end b)])
                     (block_bytes b) t (t + tdelay junk + block_wait b + fst (b_bcc b))
                     AwaitBcc snt)) rest.
Proof.
  intros Hjn Hjs Hs Hp He Hn Hw. apply nonneg_split in Hn as (Hn1 & Hn2 & Hn3).
  pose proof (tdelay_nonneg _ Hn2). pose proof (tdelay_nonneg _ Hjn).
  erewrite run_steps by (apply steps_junk; auto; unfold block_wait in Hw; lia).
  unfold block_events, block_wait in *. cbn [tevs map app].
  rewrite run_cons, step_start by (auto; lia). cbn [run_after app].
  fold (tevs (b_payload b)). rewrite <- app_assoc.
  erewrite run_steps by (apply steps_payload; auto; lia).
  cbn [app]. rewrite run_cons, step_end by (auto; lia).
  cbn [run_after]. rewrite run_cons, step_bcc. rewrite block_bytes_eq.
  rewrite <- !app_assoc. cbn [app].
  do 3 f_equal. lia.
Qed.

(** A block framed by [sb] ... [eb] with a correct BCC, no end byte in the
    payload, and non-negative receive delays. *)
Definition valid_block (sb eb : Z) (b : block) : Prop :=
  snd (b_start b) = sb /\ snd (b_end b) = eb /\ payload_ok b /\
  bcc_valid (block_bytes b) = true /\ block_delays_nonneg b.

Lemma drop_last_block (b : block) :
  drop_last 2 (block_bytes b) = snd (b_start b) :: tbytes (b_payload b).
Proof. rewrite block_bytes_eq. apply (drop_last_app _ [_; _]). Qed.

Lemma run_partial_blocks (to : Z) (bs : list block) :
  forall tot pk t snt rest, 1 <= pk ->
  Forall (valid_block STX EOT) bs -> Forall (fun b => block_wait b <= to) bs ->
  exists t',
    run to (RState tot pk true (Some [STX]) (Some [EOT]) [] t t Scanning snt)
      (concat (map block_events bs) ++ rest)
    = run to (RState (tot ++ concat (map (fun b => tbytes (b_payload b) ++ LINE_END) bs))
                (pk + Z.of_nat (length bs)) true (Some [STX]) (Some [EOT]) [] t' t'
                Scanning (snt ++ repeat ACK (length bs))) rest.
Proof.
  induction bs as [|b bs IH]; intros tot pk t snt rest Hpk Hv Hw.
  - exists t. simpl. now rewrite !app_nil_r, Z.add_0_r.
  - inversion Hv as [|? ? (Hs & He & Hp & Hb & Hn) Hv']; inversion Hw as [|? ? Hw1 Hw']; subst.
    cbn [map concat]. rewrite <- app_assoc.
    rewrite run_block_later by (auto; rewrite ?Hs, ?He; reflexivity).
    rewrite He, after_block_eot_ok by auto. cbn [run_after].
    replace (pk + 1 >? 1) with true by (symmetry; apply Z.gtb_lt; lia).
    rewrite drop_last_block, Hs. cbn [drop_first skipn app].
    destruct (IH (tot ++ tbytes (b_payload b) ++ LINE_END) (pk + 1)
                (t + block_wait b + fst (b_bcc b)) (snt ++ [ACK]) rest)
      as [t' Ht']; try lia; auto.
    exists t'. rewrite Ht'. cbn [length map concat repeat].
    rewrite <- !app_assoc. do 2 f_equal. lia.
Qed.

Lemma run_final_block (to : Z) tot pk ec t snt (f : block) rest :
  1 <= pk -> valid_block STX ETX f -> block_wait f <= to ->
  run to (RState tot pk true (Some [STX]) ec [] t t Scanning snt) (block_events f ++ rest)
  = (Fin (Ok (add_bcc (tot ++ tbytes (b_payload f) ++ [ETX]))) snt, rest).
Proof.
  intros Hpk (Hs & He & Hp & Hb & Hn) Hw.
  rewrite run_block_later by (auto; rewrite ?Hs, ?He; reflexivity).
  rewrite He, after_block_etx_ok by auto. cbn [run_after].
  replace (pk + 1 >? 1) with true by (symmetry; apply Z.gtb_lt; lia).
  rewrite block_bytes_eq, Hs, He. cbn [drop_first skipn app].
  replace (tot ++ tbytes (b_payload f) ++ [ETX; snd (b_bcc f)])
    with ((tot ++ tbytes (b_payload f) ++ [ETX]) ++ [snd (b_bcc f)])
    by (now rewrite <- !app_assoc).
  now rewrite (drop_last_app _ [_]).
Qed.

(** ** Claims about [read] *)

(** The message [read] rebuilds from partial blocks [b1 :: bs] and a final
    block [f]: the first STX, every payload followed by the line end for
    the partial blocks, the final payload and ETX. *)
Definition reassembled (b1 : block) (bs : list block) (f : block) : bytes :=
  STX :: tbytes (b_payload b1) ++ LINE_END ++
  concat (map (fun b => tbytes (b_payload b) ++ LINE_END) bs) ++
  tbytes (b_payload f) ++ [ETX].

(** C1: a valid multi-block message (partial STX..EOT blocks [b1 :: bs],
    then a final STX..ETX block [f], every BCC correct, every block within
    the timeout; bytes outside the start set may precede [b1]) is returned
    as the blocks with their per-block framing removed except the first STX,
    each partial block's EOT and BCC replaced by the line end, followed by
    a BCC that validates against the whole returned buffer. One ACK is sent
    per partial block and nothing after the final BCC is consumed. *)
Theorem read_multi_block (self : transport) (timeout : option Z) (t0 : Z)
  (junk : list (Z * Z)) (b1 : block) (bs : list block) (f : block) (rest : list event) :
  Forall (fun p => 0 <= fst p) junk ->
  Forall (fun p => is_start (snd p) = false) junk ->
  Forall (valid_block STX EOT) (b1 :: bs) ->
  valid_block STX ETX f ->
  tdelay junk + block_wait b1 <= tr_timeout self ->
  Forall (fun b => block_wait b <= tr_timeout self) (bs ++ [f]) ->
  read self timeout t0 (tevs junk ++ concat (map block_events (b1 :: bs ++ [f])) ++ rest)
  = (Fin (Ok (add_bcc (reassembled b1 bs f))) (repeat ACK (S (length bs))), rest)
  /\ bcc_valid (add_bcc (reassembled b1 bs f)) = true.
Proof.
  intros Hjn Hjs Hv Hf Hw1 Hw. split; [| apply bcc_valid_add_bcc].
  inversion Hv as [|? ? (Hs & He & Hp & Hb & Hn) Hv']; subst.
  apply Forall_app in Hw as [Hw Hwf]. inversion Hwf as [|? ? Hwf' _]; subst.
  unfold read, read_init. cbn [map concat]. rewrite map_app, concat_app.
  cbn [map concat]. rewrite app_nil_r, <- !app_assoc.
  rewrite run_block_first by (auto; rewrite ?Hs, ?He; reflexivity).
  rewrite Hs, He, after_block_eot_ok by auto. cbn [run_after].
  change (0 + 1 >? 1) with false. cbn iota. rewrite drop_last_block, Hs. cbn [app].
  destruct (run_partial_blocks (tr_timeout self) bs (STX :: tbytes (b_payload b1) ++ LINE_END)
              (0 + 1) (t0 + tdelay junk + block_wait b1 + fst (b_bcc b1)) [ACK]
              (block_events f ++ rest)) as [t' Ht']; try lia; auto.
  rewrite Ht'.
  rewrite run_final_block by (auto; lia).
  unfold reassembled. cbn [app repeat]. now rewrite <- !app_assoc.
Qed.

(** A block [sb p eb] with its correct BCC, every byte taking [d] to arrive. *)
Definition mk_block (d sb : Z) (p : bytes) (eb : Z) : block :=
  Block (d, sb) (map (fun x => (d, x)) p) (d, eb) (d, calculate_bcc (sb :: p ++ [eb])).

Ltac concrete_hyps :=
  unfold valid_block, payload_ok, block_delays_nonneg;
  repeat (match goal with
          | |- Forall _ _ => constructor
          | |- _ /\ _ => split
          | |- _ = _ => reflexivity
          | |- _ => progress cbn
          | |- _ => lia
          end).

Lemma read_multi_block_witness :
  read (Transport 30) None 0
    (tevs [(1, 7)] ++ concat (map block_events
       (mk_block 2 STX [65; 66] EOT :: [mk_block 3 STX [67] EOT] ++ [mk_block 1 STX [68] ETX])) ++ [])
  = (Fin (Ok (add_bcc (reassembled (mk_block 2 STX [65; 66] EOT) [mk_block 3 STX [67] EOT]
                        (mk_block 1 STX [68] ETX))))
       (repeat ACK (S (length [mk_block 3 STX [67] EOT]))), [])
  /\ bcc_valid (add_bcc (reassembled (mk_block 2 STX [65; 66] EOT) [mk_block 3 STX [67] EOT]
                        (mk_block 1 STX [68] ETX))) = true.
Proof. apply read_multi_block; concrete_hyps. Defined.

(** C3 (as stated, refuted): a single valid block STX 'A' ETX BCC is not
    returned as its payload 'A': [read] returns the whole block. *)
Lemma read_single_block_not_payload :
  read (Transport 30) None 0 (timed 0 [STX; 65; ETX; calculate_bcc [STX; 65; ETX]])
  = (Fin (Ok [STX; 65; ETX; calculate_bcc [STX; 65; ETX]]) [], [])
  /\ [STX; 65; ETX; calculate_bcc [STX; 65; ETX]] <> [65].
Proof. split; [reflexivity | discriminate]. Qed.

(** C3 (amended): a valid single STX..ETX block, possibly preceded by bytes
    outside the start set and within the timeout, is returned verbatim:
    STX, payload, ETX and BCC; nothing is sent and nothing after the BCC is
    consumed. *)
Theorem read_single_block (self : transport) (timeout : option Z) (t0 : Z)
  (junk : list (Z * Z)) (f : block) (rest : list event) :
  Forall (fun p => 0 <= fst p) junk ->
  Forall (fun p => is_start (snd p) = false) junk ->
  valid_block STX ETX f ->
  tdelay junk + block_wait f <= tr_timeout self ->
  read self timeout t0 (tevs junk ++ block_events f ++ rest)
  = (Fin (Ok (block_bytes f)) [], rest).
Proof.
  intros Hjn Hjs (Hs & He & Hp & Hb & Hn) Hw.
  unfold read, read_init.
  rewrite run_block_first by (auto; rewrite ?Hs, ?He; reflexivity).
  rewrite Hs, He, after_block_etx_ok by auto. reflexivity.
Qed.

Lemma read_single_block_witness :
  read (Transport 30) None 0 (tevs [(1, 7); (2, 8)] ++ block_events (mk_block 4 STX [65; 66] ETX) ++ [])
  = (Fin (Ok (block_bytes (mk_block 4 STX [65; 66] ETX))) [], []).
Proof. apply read_single_block; concrete_hyps. Defined.




(** C4 (as stated, refuted): a byte [x] arriving between two blocks is
    not discarded in the second iteration; it is kept in the block, whose
    BCC then fails, and a NACK is sent although the block itself is valid. *)
Lemma read_junk_between_blocks_kept :
  read (Transport 30) None 0
    (block_events (mk_block 0 STX [65] EOT) ++ timed 0 [120] ++
     block_events (mk_block 0 STX [66] ETX))
  = (Fin Blocked [ACK; NACK], [])
  /\ bcc_valid (block_bytes (mk_block 0 STX [66] ETX)) = true.
Proof. split; reflexivity. Qed.

Lemma steps_keep_start (to : Z) (evs : list event) :
  forall s s', steps to s evs = inl s' -> start_char_received s = true ->
  start_char_received s' = true /\ start_char s' = start_char s.
Proof.
  induction evs as [|e evs IH]; intros s s' Hst Hr; simpl in Hst.
  - inversion Hst; subst; auto.
  - destruct (step to s e) as [s1|] eqn:Hs1; [|discriminate].
    assert (start_char_received s1 = true /\ start_char s1 = start_char s) as [H1 H2].
    { destruct s as [tot pk [|] sc ec idata st t [|] snt]; try discriminate.
      all: destruct e as [d b|d]; [|discriminate]; unfold step, after_block in Hs1;
        cbn [ph now start_time start_char_received start_char end_char in_data
             set_scan set_end set_bcc next_block do_send set_total negb] in Hs1;
        repeat match type of Hs1 with
               | context [if ?c then _ else _] => destruct c
               end; inversion Hs1; auto. }
    destruct (IH s1 s' Hst H1) as [H3 H4]. split; congruence.
Qed.

(** C4 (amended): the start set is searched only until the first start
    byte of the call. Before it, bytes outside the start set are dropped
    (conjunct 2); the first start byte is appended, sets the flag and is
    recorded as the call's start byte (conjunct 4); from then on the flag
    stays set and the recorded start byte stays that first one for the
    rest of the call, later blocks and re-receipts included (conjunct 1),
    and every byte that is not an end byte, a later block's start byte or
    any byte before it included, is appended to the block (conjunct 3). *)
Theorem read_start_scan_once (to : Z) :
  (forall s evs s', steps to s evs = inl s' -> start_char_received s = true ->
     start_char_received s' = true /\ start_char s' = start_char s)
  /\ (forall tot pk sc ec idata st t snt d b,
        py_in b start_chars = false -> t + d - st <= to ->
        step to (RState tot pk false sc ec idata st t Scanning snt) (Recv d b)
        = inl (RState tot pk false sc ec idata st (t + d) Scanning snt))
  /\ (forall tot pk sc ec idata st t snt d b,
        py_in b end_chars = false -> t + d - st <= to ->
        step to (RState tot pk true sc ec idata st t Scanning snt) (Recv d b)
        = inl (RState tot pk true sc ec (idata ++ b) st (t + d) Scanning snt))
  /\ (forall tot pk sc ec idata st t snt d b,
        py_in b start_chars = true -> t + d - st <= to ->
        step to (RState tot pk false sc ec idata st t Scanning snt) (Recv d b)
        = inl (RState tot pk true (Some b) ec (idata ++ b) st (t + d) Scanning snt)).
Proof.
  split; [intros s evs s'; apply steps_keep_start |].
  split; [| split]; intros tot pk sc ec idata st t snt d b Hb Ht;
    unfold step; cbn [ph now start_time start_char_received negb];
    no_timeout; now rewrite Hb.
Qed.

Lemma read_start_scan_once_witness :
  (steps 30 (RState [] 0 true (Some [STX]) None [STX] 0 0 Scanning [])
     (timed 0 [65; EOT; 71] ++ timed 1 [120; SOH])
   = inl (RState [STX; 65; 13; 10] 1 true (Some [STX]) (Some [EOT]) [120; SOH] 0 2 Scanning [ACK])
   /\ start_char_received
        (RState [STX; 65; 13; 10] 1 true (Some [STX]) (Some [EOT]) [120; SOH] 0 2 Scanning [ACK])
      = true
   /\ start_char
        (RState [STX; 65; 13; 10] 1 true (Some [STX]) (Some [EOT]) [120; SOH] 0 2 Scanning [ACK])
      = start_char (RState [] 0 true (Some [STX]) None [STX] 0 0 Scanning []))
  /\ step 30 (RState [] 0 false None None [] 0 0 Scanning []) (Recv 5 [120])
     = inl (RState [] 0 false None None [] 0 5 Scanning [])
  /\ step 30 (RState [] 1 true (Some [STX]) None [STX] 0 0 Scanning []) (Recv 5 [SOH])
     = inl (RState [] 1 true (Some [STX]) None [STX; SOH] 0 5 Scanning [])
  /\ step 30 (RState [] 0 false None None [] 0 5 Scanning []) (Recv 2 [STX])
     = inl (RState [] 0 true (Some [STX]) None [STX] 0 7 Scanning []).
Proof.
  destruct (read_start_scan_once 30) as [H1 [H2 [H3 H4]]].
  split; [split; [reflexivity | apply (H1 _ (timed 0 [65; EOT; 71] ++ timed 1 [120; SOH]));
                                reflexivity] |].
  split; [apply H2; reflexivity || lia |].
  split; [apply H3; reflexivity || lia | apply H4; reflexivity || lia].
Defined.

(** C2 (code defect): [packets += 1] runs before the BCC check, so a NACKed
    attempt counts as a block. A single block STX 'A' ETX first received
    with a wrong BCC (0) and then retransmitted correctly: one NACK is sent
    and the block is re-received, but the retry makes [packets] 2, so the
    leading STX is stripped and the BCC recomputed; the same block received
    cleanly is returned with its STX. *)
Theorem read_nack_retry_changes_message :
  read (Transport 30) None 0
    (block_events (Block (0, STX) [(0, 65)] (0, ETX) (0, 0)) ++
     block_events (mk_block 0 STX [65] ETX))
  = (Fin (Ok [65; ETX; calculate_bcc [65; ETX]]) [NACK], [])
  /\ read (Transport 30) None 0 (block_events (mk_block 0 STX [65] ETX))
     = (Fin (Ok [STX; 65; ETX; calculate_bcc [STX; 65; ETX]]) [], [])
  /\ [65; ETX; calculate_bcc [65; ETX]] <> [STX; 65; ETX; calculate_bcc [STX; 65; ETX]].
Proof. split; [reflexivity | split; [reflexivity | discriminate]]. Qed.

(** C5 (code defect): [read] and [simple_read] compute
    [timeout = timeout or self.timeout] but compare the elapsed time with
    [self.timeout]. With [self.timeout = 10] and an override of 100, a
    first byte taking 20 fails both reads with a timeout. *)
Theorem read_timeout_override_ignored :
  read (Transport 10) (Some 100) 0
    (Recv 20 [STX] :: block_events (mk_block 0 STX [65] ETX))
  = (Fin ErrTimeout [], block_events (mk_block 0 STX [65] ETX))
  /\ simple_read (Transport 10) (PyStr "/") (PyStr "!") (Some 100) 0
       (timed 20 (ascii_bytes "/a!"))
     = (ErrTimeout, timed 20 (ascii_bytes "a!"))
  /\ py_or_timeout (Some 100) 10 = 100.
Proof. split; [reflexivity | split; reflexivity]. Qed.

(** ** Reads that never see a start byte *)

Definition no_start_event (e : event) : Prop :=
  match e with
  | Recv _ b => py_in b start_chars = false
  | RecvErr _ => True
  end.

Definition ev_delay (e : event) : Z := match e with Recv d _ | RecvErr d => d end.
Definition is_recv (e : event) : bool := match e with Recv _ _ => true | RecvErr _ => false end.
Definition total_delay (evs : list event) : Z := fold_right (fun e acc => ev_delay e + acc) 0 evs.

Lemma total_delay_cons (e : event) (evs : list event) :
  total_delay (e :: evs) = ev_delay e + total_delay evs.
Proof. reflexivity. Qed.

Lemma run_no_start (to : Z) (evs : list event) :
  forall tot pk sc ec idata st t,
  Forall no_start_event evs ->
  exists o, fst (run to (RState tot pk false sc ec idata st t Scanning []) evs) = Fin o []
            /\ forall d, o <> Ok d.
Proof.
  induction evs as [|e evs IH]; intros tot pk sc ec idata st t Hn.
  - exists Blocked. split; [reflexivity | discriminate].
  - inversion Hn as [|? ? He Hn']; subst. rewrite run_cons.
    destruct e as [d b|d]; cbn [no_start_event] in He.
    + unfold step; cbn [ph now start_time start_char_received negb].
      destruct (t + d - st >? to).
      * exists ErrTimeout. split; [reflexivity | discriminate].
      * rewrite He. apply IH; auto.
    + exists ErrTransport. split; [reflexivity | discriminate].
Qed.

Lemma run_no_start_timeout (to : Z) (evs : list event) :
  forall tot pk sc ec idata st t,
  Forall no_start_event evs ->
  Forall (fun e => is_recv e = true /\ 0 <= ev_delay e) evs ->
  t - st <= to -> to < t - st + total_delay evs ->
  fst (run to (RState tot pk false sc ec idata st t Scanning []) evs) = Fin ErrTimeout [].
Proof.
  induction evs as [|e evs IH]; intros tot pk sc ec idata st t Hn Hr H1 H2.
  - cbn in H2. lia.
  - inversion Hn as [|? ? He Hn']; inversion Hr as [|? ? [Hre Hd] Hr']; subst.
    rewrite run_cons. destruct e as [d b|d]; [| discriminate].
    rewrite total_delay_cons in H2. cbn [no_start_event ev_delay] in He, Hd, H2. unfold step; cbn [ph now start_time start_char_received negb].
    destruct (t + d - st >? to) eqn:Ht; [reflexivity |].
    rewrite He. apply (IH tot pk sc ec idata st (t + d)); auto.
    + rewrite Z.gtb_ltb in Ht. apply Z.ltb_ge in Ht. lia.
    + lia.
Qed.

(** C7 (as stated, refuted): when the meter stays silent on a TCP transport,
    [socket.recv] raises [socket.timeout], which [TcpTransport._recv]
    re-raises as [TransportError]; [read] then fails with that transport
    error, not with a timeout error. *)
Lemma read_silent_tcp_transport_error :
  Transports.recv (Transports.TcpTransport ("meter"%string, 4059) 30
                     (Some (Transports.SocketHandle 30))) 1 (Transports.World [] [] [] [])
  = (Transports.PyRaise Transports.TransportError,
     Transports.TcpTransport ("meter"%string, 4059) 30 (Some (Transports.SocketHandle 30)),
     Transports.World [Transports.SockRecv 1] [] [] [])
  /\ read (Transport 30) None 0 [RecvErr 30] = (Fin ErrTransport [], []).
Proof. split; reflexivity. Qed.

(** C7 (amended): if no received byte is in the start set, [read] sends
    nothing and returns no data: it fails (timeout or transport error) or
    keeps waiting. When every receive succeeds and the delays add up past
    the configured timeout, it fails with a timeout error. *)
Theorem read_no_start_byte (self : transport) (timeout : option Z) (t0 : Z)
  (evs : list event) :
  Forall no_start_event evs ->
  (exists o, fst (read self timeout t0 evs) = Fin o [] /\ forall d, o <> Ok d)
  /\ (0 <= tr_timeout self ->
      Forall (fun e => is_recv e = true /\ 0 <= ev_delay e) evs ->
      tr_timeout self < total_delay evs ->
      fst (read self timeout t0 evs) = Fin ErrTimeout []).
Proof.
  intros Hn. unfold read, read_init. split.
  - apply run_no_start; auto.
  - intros H0 Hr Ht. apply run_no_start_timeout; auto; lia.
Qed.

Lemma read_no_start_byte_witness :
  Forall no_start_event (timed 12 [7; 8; 9]) /\
  ((exists o, fst (read (Transport 30) None 0 (timed 12 [7; 8; 9])) = Fin o []
              /\ forall d, o <> Ok d)
   /\ (0 <= tr_timeout (Transport 30) ->
       Forall (fun e => is_recv e = true /\ 0 <= ev_delay e) (timed 12 [7; 8; 9]) ->
       tr_timeout (Transport 30) < total_delay (timed 12 [7; 8; 9]) ->
       fst (read (Transport 30) None 0 (timed 12 [7; 8; 9])) = Fin ErrTimeout [])).
Proof.
  assert (H : Forall no_start_event (timed 12 [7; 8; 9])) by (repeat constructor).
  split; [exact H | apply read_no_start_byte; exact H].
Defined.

(** ** Transports on a closed resource *)

Import Transports.

(** C8: on a closed serial port every send, receive, disconnect and
    baud-rate switch raises [TransportError]; on a closed TCP socket every
    send, receive and disconnect raises it. [TcpTransport.switch_baudrate]
    never raises and leaves the transport and the devices (no byte sent or
    received) unchanged, whether the socket is open or not. *)
Theorem closed_transport_errors :
  (forall (t : serial_transport) (w : world) (data : bytes) (chars baud : Z),
     port t = None ->
     send t data w = (PyRaise TransportError, t, w) /\
     recv t chars w = (PyRaise TransportError, t, w) /\
     disconnect t w = (PyRaise TransportError, t, w) /\
     switch_baudrate t baud w = (PyRaise TransportError, t, w))
  /\ (forall (t : tcp_transport) (w : world) (data : bytes) (chars : Z),
     socket t = None ->
     send t data w = (PyRaise TransportError, t, w) /\
     recv t chars w = (PyRaise TransportError, t, w) /\
     disconnect t w = (PyRaise TransportError, t, w))
  /\ (forall (t : tcp_transport) (w : world) (baud : Z),
     switch_baudrate t baud w = (PyOk tt, t, w)).
Proof.
  split; [| split].
  - intros t w data chars baud Hp. cbn.
    unfold serial__send, serial__recv, serial_disconnect, serial_switch_baudrate.
    rewrite Hp. repeat split.
  - intros t w data chars Hs. cbn.
    unfold tcp__send, tcp__recv, tcp_disconnect. rewrite Hs. repeat split.
  - reflexivity.
Qed.

Lemma closed_transport_errors_witness :
  (send (SerialTransport "/dev/ttyUSB0"%string 10 None) [6] (World [] [[65]] [] [])
   = (PyRaise TransportError, SerialTransport "/dev/ttyUSB0"%string 10 None, World [] [[65]] [] []) /\
   recv (SerialTransport "/dev/ttyUSB0"%string 10 None) 1 (World [] [[65]] [] [])
   = (PyRaise TransportError, SerialTransport "/dev/ttyUSB0"%string 10 None, World [] [[65]] [] []) /\
   disconnect (SerialTransport "/dev/ttyUSB0"%string 10 None) (World [] [[65]] [] [])
   = (PyRaise TransportError, SerialTransport "/dev/ttyUSB0"%string 10 None, World [] [[65]] [] []) /\
   switch_baudrate (SerialTransport "/dev/ttyUSB0"%string 10 None) 9600 (World [] [[65]] [] [])
   = (PyRaise TransportError, SerialTransport "/dev/ttyUSB0"%string 10 None, World [] [[65]] [] []))
  /\ (send (TcpTransport ("meter"%string, 4059) 30 None) [6] (World [] [] [SockData [65]] [])
      = (PyRaise TransportError, TcpTransport ("meter"%string, 4059) 30 None, World [] [] [SockData [65]] []) /\
      recv (TcpTransport ("meter"%string, 4059) 30 None) 1 (World [] [] [SockData [65]] [])
      = (PyRaise TransportError, TcpTransport ("meter"%string, 4059) 30 None, World [] [] [SockData [65]] []) /\
      disconnect (TcpTransport ("meter"%string, 4059) 30 None) (World [] [] [SockData [65]] [])
      = (PyRaise TransportError, TcpTransport ("meter"%string, 4059) 30 None, World [] [] [SockData [65]] []))
  /\ switch_baudrate (TcpTransport ("meter"%string, 4059) 30 (Some (SocketHandle 30))) 9600
       (World [] [] [SockData [65]] [])
     = (PyOk tt, TcpTransport ("meter"%string, 4059) 30 (Some (SocketHandle 30)),
        World [] [] [SockData [65]] []).
Proof.
  destruct closed_transport_errors as [H1 [H2 H3]].
  split; [apply H1; reflexivity | split; [apply H2; reflexivity | apply H3]].
Defined.

(** ** [simple_read] on the example stream *)

(** C9: [simple_read('/', '!')] on the bytes [junk/hello!more] returns
    [/hello!]: bytes before '/' are dropped, bytes through '!' are kept,
    and [more] is left unconsumed. *)
Theorem simple_read_junk_hello (to t0 : Z) :
  0 <= to ->
  simple_read (Transport to) (PyStr "/") (PyStr "!") None t0
    (timed 0 (ascii_bytes "junk/hello!more"))
  = (Ok (ascii_bytes "/hello!"), timed 0 (ascii_bytes "more")).
Proof.
  intros Hto.
  assert (H0 : (0 >? to) = false) by (rewrite Z.gtb_ltb; apply Z.ltb_ge; lia).
  replace (ascii_bytes "junk/hello!more")
    with [106; 117; 110; 107; 47; 104; 101; 108; 108; 111; 33; 109; 111; 114; 101]
    by reflexivity.
  replace (ascii_bytes "/hello!") with [47; 104; 101; 108; 108; 111; 33] by reflexivity.
  replace (ascii_bytes "more") with [109; 111; 114; 101] by reflexivity.
  unfold simple_read.
  change (ensure_bytes (PyStr "/")) with [47]. change (ensure_bytes (PyStr "!")) with [33].
  repeat (simpl; rewrite ?Z.add_0_r, ?Z.sub_diag, ?H0).
  reflexivity.
Qed.

Lemma simple_read_junk_hello_witness :
  simple_read (Transport 30) (PyStr "/") (PyStr "!") None 1000
    (timed 0 (ascii_bytes "junk/hello!more"))
  = (Ok (ascii_bytes "/hello!"), timed 0 (ascii_bytes "more")).
Proof. apply simple_read_junk_hello. lia. Defined.

(** ** The per-block clock *)

Lemma after_block_continue (s s' : rstate) :
  after_block s = inl s' ->
  in_data s' = [] /\ start_time s' = now s' /\ ph s' = Scanning /\
  start_char_received s' = start_char_received s.
Proof.
  unfold after_block.
  repeat match goal with
         | |- context [if ?c then _ else _] => destruct c
         end; intros H; inversion H; subst; cbn; auto.
Qed.

Lemma after_block_return (s : rstate) (o : outcome) (snt : list bytes) :
  after_block s = inr (Fin o snt) -> o <> ErrTimeout.
Proof.
  unfold after_block.
  repeat match goal with
         | |- context [if ?c then _ else _] => destruct c
         end; intros H; inversion H; subst; discriminate.
Qed.

(** A block of a later iteration that arrives within the timeout. *)
Definition later_block_ok (to : Z) (b : block) : Prop :=
  is_end (snd (b_start b)) = false /\ payload_ok b /\ is_end (snd (b_end b)) = true /\
  block_delays_nonneg b /\ block_wait b <= to.

Lemma run_later_no_timeout (to : Z) (bs : list block) :
  forall s snt, start_char_received s = true -> in_data s = [] -> start_time s = now s ->
  ph s = Scanning -> Forall (later_block_ok to) bs ->
  fst (run to s (concat (map block_events bs))) <> Fin ErrTimeout snt.
Proof.
  induction bs as [|b bs IH]; intros s snt Hr Hi Ht Hp Hb.
  - destruct s; discriminate.
  - inversion Hb as [|? ? (Hs & Hpl & He & Hn & Hw) Hb']; subst.
    destruct s as [tot pk scr sc ec idata st t ph0 snt0]; cbn in Hr, Hi, Ht, Hp; subst.
    cbn [map concat]. rewrite run_block_later by auto.
    destruct (after_block _) as [s'|[o snt']] eqn:Ha; cbn [run_after].
    + apply after_block_continue in Ha as (H1 & H2 & H3 & H4).
      apply IH; auto.
    + apply after_block_return in Ha. cbn. congruence.
Qed.

(** C10: the clock restarts at every block attempt, NACKed re-receipts
    included. For any sequence of blocks (valid or not, so with any mix of
    ACKs and NACKs) in which each block's own wait stays within the
    configured timeout, [read] never raises a timeout error, however long
    the blocks take together. *)
Theorem read_timeout_per_block (self : transport) (timeout : option Z) (t0 : Z)
  (junk : list (Z * Z)) (b1 : block) (bs : list block) (snt : list bytes) :
  Forall (fun p => 0 <= fst p) junk ->
  Forall (fun p => is_start (snd p) = false) junk ->
  is_start (snd (b_start b1)) = true -> payload_ok b1 -> is_end (snd (b_end b1)) = true ->
  block_delays_nonneg b1 -> tdelay junk + block_wait b1 <= tr_timeout self ->
  Forall (later_block_ok (tr_timeout self)) bs ->
  fst (read self timeout t0 (tevs junk ++ concat (map block_events (b1 :: bs))))
  <> Fin ErrTimeout snt.
Proof.
  intros Hjn Hjs Hs Hp He Hn Hw Hbs. unfold read, read_init.
  cbn [map concat]. rewrite <- (app_nil_r (concat (map block_events bs))).
  rewrite run_block_first by auto. rewrite app_nil_r.
  destruct (after_block _) as [s'|[o snt']] eqn:Ha; cbn [run_after].
  - apply after_block_continue in Ha as (H1 & H2 & H3 & H4).
    apply run_later_no_timeout; auto.
  - apply after_block_return in Ha. cbn. congruence.
Qed.

(** Three blocks, the first received with a wrong BCC and NACKed, each
    taking the whole timeout of 10: 30 time units in all, and no timeout. *)
Lemma read_timeout_per_block_witness :
  fst (read (Transport 10) None 0
         (tevs [] ++ concat (map block_events
            (Block (3, STX) [(4, 65)] (3, ETX) (50, 0)
             :: [mk_block 3 STX [65] EOT; Block (5, STX) [(2, 66)] (3, ETX) (50, 67)]))))
  <> Fin ErrTimeout []
  /\ 10 < total_delay (tevs [] ++ concat (map block_events
            (Block (3, STX) [(4, 65)] (3, ETX) (50, 0)
             :: [mk_block 3 STX [65] EOT; Block (5, STX) [(2, 66)] (3, ETX) (50, 67)])))
  /\ fst (read (Transport 10) None 0
         (tevs [] ++ concat (map block_events
            (Block (3, STX) [(4, 65)] (3, ETX) (50, 0)
             :: [mk_block 3 STX [65] EOT; Block (5, STX) [(2, 66)] (3, ETX) (50, 67)]))))
     = Fin (Ok [65; 13; 10; 66; ETX; calculate_bcc [65; 13; 10; 66; ETX]]) [NACK; ACK].
Proof.
  split; [| split; [vm_compute; reflexivity | reflexivity]].
  apply read_timeout_per_block; unfold later_block_ok; concrete_hyps.
Defined.

(** ** Further properties of [read] *)

Lemma bytes_eqb_eq (a b : bytes) : bytes_eqb a b = true -> a = b.
Proof.
  revert b. induction a as [|x a IH]; intros [|y b] H; try discriminate; auto.
  cbn in H. apply andb_prop in H as [H1 H2]. apply Z.eqb_eq in H1. subst.
  now rewrite (IH b H2).
Qed.

Lemma opt_bytes_eqb_eq (a b : option bytes) : opt_bytes_eqb a b = true -> a = b.
Proof.
  destruct a, b; cbn; intros H; try discriminate; auto.
  now rewrite (bytes_eqb_eq _ _ H).
Qed.

(** What [read] keeps true between two [recv(1)] calls. *)
Definition read_inv (s : rstate) : Prop :=
  0 <= packets s /\
  (start_char_received s = false ->
     start_char s = None /\ in_data s = [] /\ total_data s = []) /\
  (start_char s = Some [SOH] -> total_data s = [] /\ exists r, in_data s = SOH :: r) /\
  match ph s with
  | Scanning => total_data s = [] \/ 1 <= packets s
  | AwaitBcc => start_char_received s = true /\ 1 <= packets s /\
                (total_data s = [] \/ 2 <= packets s)
  end.

Lemma read_inv_init (t0 : Z) : read_inv (read_init t0).
Proof. unfold read_inv; cbn. repeat split; auto; try lia; discriminate. Qed.

Ltac split_ifs H :=
  repeat match type of H with
         | context [if ?c then _ else _] => let E := fresh "E" in destruct c eqn:E
         end.

Lemma after_block_inv (s s' : rstate) :
  read_inv s -> ph s = AwaitBcc -> after_block s = inl s' -> read_inv s'.
Proof.
  destruct s as [tot pk scr sc ec idata st t ph0 snt].
  unfold read_inv; cbn. intros (Hpk & Hf & Hsoh & Hph) -> H.
  destruct Hph as (Hscr & Hpk1 & Htot). subst scr.
  unfold after_block in H; cbn in H. split_ifs H; inversion H; subst; cbn;
    (refine (conj _ (conj _ (conj _ _)));
     [ lia
     | intros Hc; discriminate
     | intros Hs; subst; cbn in *; congruence
     | right; lia ]).
Qed.

Lemma step_inv (to : Z) (s s' : rstate) (e : event) :
  read_inv s -> step to s e = inl s' -> read_inv s'.
Proof.
  intros Hi H. destruct e as [d b|d]; [|discriminate].
  destruct s as [tot pk scr sc ec idata st t [|] snt].
  - unfold read_inv in Hi; cbn in Hi. destruct Hi as (Hpk & Hf & Hsoh & Hph).
    destruct scr; unfold step in H; cbn in H; split_ifs H; inversion H; subst; clear H;
      unfold read_inv; cbn.
    1-3: refine (conj _ (conj _ (conj _ _))); try lia; try (intros; discriminate).
    all: try (intros Hs; destruct (Hsoh Hs) as [Ht [r Hr]];
              split; [exact Ht | exists (r ++ b); now rewrite Hr]).
    + split; [reflexivity | split; [lia | destruct Hph; [left; auto | right; lia]]].
    + destruct Hph; [left; auto | right; lia].
    + intros Hb; inversion Hb; subst. destruct (Hf eq_refl) as (_ & -> & ->).
      split; [reflexivity | now exists []].
    + destruct (Hf eq_refl) as (-> & -> & ->). now left.
    + auto.
  - cbn [step ph now] in H.
    refine (after_block_inv (set_bcc (RState tot pk scr sc ec idata st t AwaitBcc snt)
              (idata ++ b) (t + d)) s' _ eq_refl H).
    unfold read_inv in *; cbn in *. destruct Hi as (Hpk & Hf & Hsoh & Hph).
    refine (conj _ (conj _ (conj _ _))); try lia; try tauto.
    + intros Hs; destruct Hph as [Hs' _]; congruence.
    + intros Hs; destruct (Hsoh Hs) as [Ht [r Hr]].
      split; [exact Ht | exists (r ++ b); now rewrite Hr].
Qed.

Lemma step_ok (to : Z) (s : rstate) (e : event) (d : bytes) (snt : list bytes) :
  read_inv s -> step to s e = inr (Fin (Ok d) snt) ->
  hd_error d = Some SOH \/ bcc_valid d = true.
Proof.
  intros Hi H. destruct e as [dl b|dl]; [|discriminate].
  destruct s as [tot pk scr sc ec idata st t [|] snt0].
  - unfold step in H; cbn in H; split_ifs H; discriminate.
  - unfold read_inv in Hi; cbn in Hi. destruct Hi as (Hpk & Hf & Hsoh & Hsc & Hpk1 & Htot).
    cbn [step ph now in_data] in H. unfold after_block in H; cbn in H.
    split_ifs H; inversion H; subst; clear H.
    + apply opt_bytes_eqb_eq in E. destruct (Hsoh E) as [-> [r ->]]. now left.
    + right. apply bcc_valid_add_bcc.
    + destruct Htot as [-> | Htot]; [| rewrite Z.gtb_ltb in E3; apply Z.ltb_ge in E3; lia].
      right. cbn. now apply negb_false_iff.
Qed.

Lemma run_ok (to : Z) (evs : list event) :
  forall s d snt rest, read_inv s -> run to s evs = (Fin (Ok d) snt, rest) ->
  hd_error d = Some SOH \/ bcc_valid d = true.
Proof.
  induction evs as [|e evs IH]; intros s d snt rest Hi H; [discriminate |].
  cbn in H. destruct (step to s e) as [s'|f] eqn:Hs.
  - eapply IH; [eapply step_inv; eauto | exact H].
  - inversion H; subst. eapply step_ok; eauto.
Qed.

(** Whatever the input, what [read] returns is either an SOH message
    (returned without a check) or a buffer whose trailing BCC validates
    against the rest of it. *)
Theorem read_ok_soh_or_valid (self : transport) (timeout : option Z) (t0 : Z)
  (evs : list event) (d : bytes) (snt : list bytes) (rest : list event) :
  read self timeout t0 evs = (Fin (Ok d) snt, rest) ->
  hd_error d = Some SOH \/ bcc_valid d = true.
Proof. unfold read. apply run_ok, read_inv_init. Qed.

Lemma read_ok_soh_or_valid_witness :
  read (Transport 30) None 0
    (block_events (Block (0, STX) [(0, 65)] (0, ETX) (0, 0)) ++
     block_events (mk_block 0 STX [65] ETX))
  = (Fin (Ok [65; ETX; calculate_bcc [65; ETX]]) [NACK], [])
  /\ (hd_error [65; ETX; calculate_bcc [65; ETX]] = Some SOH
      \/ bcc_valid [65; ETX; calculate_bcc [65; ETX]] = true).
Proof.
  assert (H : read (Transport 30) None 0
    (block_events (Block (0, STX) [(0, 65)] (0, ETX) (0, 0)) ++
     block_events (mk_block 0 STX [65] ETX))
    = (Fin (Ok [65; ETX; calculate_bcc [65; ETX]]) [NACK], [])) by reflexivity.
  split; [exact H | exact (read_ok_soh_or_valid _ _ _ _ _ _ _ H)].
Defined.

(** [read] sends nothing but ACK and NACK bytes. *)
Lemma step_sent (to : Z) (s : rstate) (e : event) :
  match step to s e with
  | inl s' => sent s' = sent s \/ sent s' = sent s ++ [ACK] \/ sent s' = sent s ++ [NACK]
  | inr (Fin _ snt) => snt = sent s
  end.
Proof.
  destruct e as [d b|d]; [|reflexivity].
  destruct s as [tot pk scr sc ec idata st t [|] snt0]; unfold step; cbn.
  - repeat match goal with
           | |- context [if ?c then _ else _] => destruct c
           end; cbn; auto.
  - unfold after_block; cbn.
    repeat match goal with
           | |- context [if ?c then _ else _] => destruct c
           end; cbn; auto.
Qed.

Lemma run_sent (to : Z) (evs : list event) :
  forall s o snt rest, Forall (fun m => m = ACK \/ m = NACK) (sent s) ->
  run to s evs = (Fin o snt, rest) -> Forall (fun m => m = ACK \/ m = NACK) snt.
Proof.
  induction evs as [|e evs IH]; intros s o snt rest Hs H.
  - inversion H; subst. exact Hs.
  - cbn in H. pose proof (step_sent to s e) as Hst.
    destruct (step to s e) as [s'|[o' snt']].
    + eapply IH; [| exact H].
      destruct Hst as [-> | [-> | ->]]; auto; apply Forall_app; auto.
    + inversion H; subst. exact Hs.
Qed.

Theorem read_sends_only_ack_nack (self : transport) (timeout : option Z) (t0 : Z)
  (evs : list event) (o : outcome) (snt : list bytes) (rest : list event) :
  read self timeout t0 evs = (Fin o snt, rest) ->
  Forall (fun m => m = ACK \/ m = NACK) snt.
Proof. unfold read. apply run_sent. constructor. Qed.

Lemma read_sends_only_ack_nack_witness :
  Forall (fun m => m = ACK \/ m = NACK) [NACK; ACK].
Proof.
  apply (read_sends_only_ack_nack (Transport 10) None 0
    (tevs [] ++ concat (map block_events
       (Block (3, STX) [(4, 65)] (3, ETX) (50, 0)
        :: [mk_block 3 STX [65] EOT; Block (5, STX) [(2, 66)] (3, ETX) (50, 67)])))
    (Ok [65; 13; 10; 66; ETX; calculate_bcc [65; 13; 10; 66; ETX]]) _ []).
  reflexivity.
Defined.

(** ** Unbounded retries *)

(** The block [g] received with another BCC byte [c']. *)
Definition with_bcc (g : block) (dc c' : Z) : block :=
  Block (b_start g) (b_payload g) (b_end g) (dc, c').

Lemma with_bcc_invalid (g : block) (dc c' : Z) :
  bcc_valid (block_bytes g) = true -> c' <> snd (b_bcc g) ->
  bcc_valid (block_bytes (with_bcc g dc c')) = false.
Proof.
  intros Hv Hc. revert Hv. rewrite !block_bytes_eq. cbn [with_bcc b_start b_payload b_end b_bcc snd].
  replace ((snd (b_start g) :: tbytes (b_payload g)) ++ [snd (b_end g); snd (b_bcc g)])
    with (((snd (b_start g) :: tbytes (b_payload g)) ++ [snd (b_end g)]) ++ [snd (b_bcc g)])
    by (now rewrite <- app_assoc).
  replace ((snd (b_start g) :: tbytes (b_payload g)) ++ [snd (b_end g); c'])
    with (((snd (b_start g) :: tbytes (b_payload g)) ++ [snd (b_end g)]) ++ [c'])
    by (now rewrite <- app_assoc).
  rewrite !bcc_valid_snoc. intros Hv. apply Z.eqb_eq in Hv. rewrite <- Hv.
  now apply Z.eqb_neq.
Qed.

Lemma run_later_nacks (to : Z) (g : block) (dc c' : Z) (n : nat) :
  forall pk t snt rest, 1 <= pk ->
  valid_block STX ETX g -> block_wait g <= to -> c' <> snd (b_bcc g) ->
  exists t',
    run to (RState [] pk true (Some [STX]) (Some [ETX]) [] t t Scanning snt)
      (concat (repeat (block_events (with_bcc g dc c')) n) ++ rest)
    = run to (RState [] (pk + Z.of_nat n) true (Some [STX]) (Some [ETX]) [] t' t' Scanning
                (snt ++ repeat NACK n)) rest.
Proof.
  induction n as [|n IH]; intros pk t snt rest Hpk Hg Hw Hc.
  - exists t. cbn. now rewrite Z.add_0_r, app_nil_r.
  - pose proof Hg as (Hs & He & Hp & Hb & Hn).
    cbn [repeat concat]. rewrite <- app_assoc.
    rewrite run_block_later by (cbn; auto; rewrite ?Hs, ?He; reflexivity).
    cbn [with_bcc b_end b_bcc snd fst]. rewrite He.
    rewrite after_block_nack by (auto; now apply with_bcc_invalid). cbn [run_after].
    destruct (IH (pk + 1) (t + block_wait (with_bcc g dc c') + dc) (snt ++ [NACK]) rest)
      as [t' Ht']; auto; try lia.
    exists t'. rewrite Ht'. rewrite <- app_assoc. cbn [app repeat].
    do 2 f_equal. lia.
Qed.

(** A block received [n] times with a wrong BCC, then with its correct BCC:
    [read] sends [n] NACKs and returns; nothing caps the retries. After
    at least one NACK the message has lost its STX and carries a BCC
    recomputed over payload and ETX. *)
Theorem read_nack_retries (self : transport) (timeout : option Z) (t0 : Z)
  (g : block) (dc c' : Z) (n : nat) (rest : list event) :
  valid_block STX ETX g -> block_wait g <= tr_timeout self -> c' <> snd (b_bcc g) ->
  read self timeout t0 (concat (repeat (block_events (with_bcc g dc c')) n) ++
                        block_events g ++ rest)
  = (Fin (Ok (match n with
              | O => block_bytes g
              | S _ => add_bcc (tbytes (b_payload g) ++ [ETX])
              end)) (repeat NACK n), rest).
Proof.
  intros Hg Hw Hc. pose proof Hg as (Hs & He & Hp & Hb & Hn).
  destruct n as [|n].
  - change (concat (repeat (block_events (with_bcc g dc c')) 0) ++ block_events g ++ rest)
      with (tevs [] ++ block_events g ++ rest).
    unfold read, read_init.
    rewrite (run_block_first _ _ _ _ _ _ _ []) by (auto; rewrite ?Hs, ?He; reflexivity).
    rewrite Hs, He, after_block_etx_ok by auto. reflexivity.
  - unfold read, read_init. cbn [repeat concat]. rewrite <- !app_assoc.
    assert (H := run_block_first (tr_timeout self) [] 0 None None t0 [] []
                   (with_bcc g dc c')
                   (concat (repeat (block_events (with_bcc g dc c')) n) ++ block_events g ++ rest)).
    cbn [tevs map app] in H. rewrite H; clear H;
      [| constructor | constructor | cbn; now rewrite Hs | exact Hp | cbn; now rewrite He
       | exact Hn | cbn; exact Hw].
    cbn [with_bcc b_end b_bcc b_start snd fst]. rewrite He, Hs.
    rewrite after_block_nack by (auto; now apply with_bcc_invalid). cbn [run_after].
    match goal with
    | |- run _ (RState _ _ _ _ _ _ ?T _ _ _) _ = _ =>
        destruct (run_later_nacks (tr_timeout self) g dc c' n (0 + 1) T ([] ++ [NACK])
                    (block_events g ++ rest)) as [t' Ht']; auto; try lia
    end.
    rewrite Ht', run_final_block by (auto; lia). reflexivity.
Qed.

Lemma read_nack_retries_witness :
  read (Transport 30) None 0
    (concat (repeat (block_events (with_bcc (mk_block 1 STX [65; 66] ETX) 1 0)) 3) ++
     block_events (mk_block 1 STX [65; 66] ETX) ++ [])
  = (Fin (Ok (add_bcc (tbytes (b_payload (mk_block 1 STX [65; 66] ETX)) ++ [ETX])))
       (repeat NACK 3), []).
Proof.
  apply (read_nack_retries (Transport 30) None 0 (mk_block 1 STX [65; 66] ETX) 1 0 3);
    [concrete_hyps | cbn; lia | cbn; discriminate].
Defined.

(** ** [simple_read] in general *)

Definition sevs (l : list (Z * bytes)) : list event := map (fun p => Recv (fst p) (snd p)) l.
Definition sdelay (l : list (Z * bytes)) : Z := fold_right (fun p acc => fst p + acc) 0 l.

Lemma bytes_eqb_refl (a : bytes) : bytes_eqb a a = true.
Proof. induction a as [|x a IH]; cbn; auto. now rewrite Z.eqb_refl, IH. Qed.

Lemma sdelay_nonneg (l : list (Z * bytes)) (P : Z * bytes -> Prop) :
  Forall (fun p => 0 <= fst p /\ P p) l -> 0 <= sdelay l.
Proof. induction 1 as [|p l [Hp _] _ IH]; unfold sdelay in *; cbn [fold_right]; lia. Qed.

Lemma gtb_false (a b : Z) : a <= b -> (a >? b) = false.
Proof. intros H. rewrite Z.gtb_ltb. apply Z.ltb_ge. lia. Qed.

Lemma simple_loop_body (to st : Z) (sc ec : bytes) (body : list (Z * bytes)) (de : Z) rest :
  forall idata t,
  Forall (fun p => 0 <= fst p /\ bytes_eqb (snd p) ec = false) body -> 0 <= de ->
  t + sdelay body + de - st <= to ->
  simple_loop to st sc ec idata true t (sevs body ++ Recv de ec :: rest)
  = (Ok (idata ++ concat (map snd body) ++ ec), rest).
Proof.
  induction body as [|[d b] body IH]; intros idata t Hb Hde Hw.
  - cbn in *. rewrite gtb_false by lia. now rewrite bytes_eqb_refl.
  - inversion Hb as [|? ? [Hd Hne] Hb']; subst. cbn [fst snd] in *.
    change (sdelay ((d, b) :: body)) with (d + sdelay body) in Hw.
    pose proof (sdelay_nonneg body (fun p => bytes_eqb (snd p) ec = false) Hb').
    cbn [sevs map app simple_loop fst snd negb].
    rewrite gtb_false by lia. rewrite Hne.
    fold (sevs body). rewrite IH by (auto; lia).
    cbn [map concat]. now rewrite <- !app_assoc.
Qed.

Lemma simple_loop_junk (to st : Z) (sc ec : bytes) (junk : list (Z * bytes)) (ds : Z) rest :
  forall idata t,
  Forall (fun p => 0 <= fst p /\ bytes_eqb (snd p) sc = false) junk -> 0 <= ds ->
  t + sdelay junk + ds - st <= to ->
  simple_loop to st sc ec idata false t (sevs junk ++ Recv ds sc :: rest)
  = simple_loop to st sc ec (idata ++ sc) true (t + sdelay junk + ds) rest.
Proof.
  induction junk as [|[d b] junk IH]; intros idata t Hj Hds Hw.
  - cbn in *. rewrite gtb_false by lia. rewrite bytes_eqb_refl. f_equal. lia.
  - inversion Hj as [|? ? [Hd Hne] Hj']; subst. cbn [fst snd] in *.
    change (sdelay ((d, b) :: junk)) with (d + sdelay junk) in *.
    pose proof (sdelay_nonneg junk (fun p => bytes_eqb (snd p) sc = false) Hj').
    cbn [sevs map app simple_loop fst snd negb].
    rewrite gtb_false by lia. rewrite Hne.
    fold (sevs junk). rewrite IH by (auto; lia).
    f_equal. lia.
Qed.

(** [simple_read] on any framed message: chunks other than the start
    bytes are skipped, then everything from the start bytes up to the
    first chunk equal to the end bytes is returned, and nothing after it
    is consumed, as long as the whole call stays within [self.timeout]. *)
Theorem simple_read_frame (self : transport) (s e : str_or_bytes) (timeout : option Z)
  (t0 : Z) (junk : list (Z * bytes)) (ds : Z) (body : list (Z * bytes)) (de : Z)
  (rest : list event) :
  Forall (fun p => 0 <= fst p /\ bytes_eqb (snd p) (ensure_bytes s) = false) junk ->
  Forall (fun p => 0 <= fst p /\ bytes_eqb (snd p) (ensure_bytes e) = false) body ->
  0 <= ds -> 0 <= de ->
  sdelay junk + ds + sdelay body + de <= tr_timeout self ->
  simple_read self s e timeout t0
    (sevs junk ++ Recv ds (ensure_bytes s) :: sevs body ++ Recv de (ensure_bytes e) :: rest)
  = (Ok (ensure_bytes s ++ concat (map snd body) ++ ensure_bytes e), rest).
Proof.
  intros Hj Hb Hds Hde Hw.
  pose proof (sdelay_nonneg body (fun p => bytes_eqb (snd p) (ensure_bytes e) = false) Hb).
  unfold simple_read. rewrite simple_loop_junk by (auto; lia).
  rewrite simple_loop_body by (auto; lia). reflexivity.
Qed.

Lemma simple_read_frame_witness :
  simple_read (Transport 10) (PyStr "/") (PyBytes [10]) (Some 100) 5
    (sevs [(1, [65]); (1, [])] ++ Recv 2 (ensure_bytes (PyStr "/")) ::
     sevs [(1, [66; 67]); (0, [47])] ++ Recv 3 (ensure_bytes (PyBytes [10])) :: [RecvErr 0])
  = (Ok (ensure_bytes (PyStr "/") ++ concat (map snd [(1, [66; 67]); (0, [47])]) ++
         ensure_bytes (PyBytes [10])), [RecvErr 0]).
Proof.
  apply simple_read_frame;
    [repeat constructor; try discriminate; lia | repeat constructor; cbn; lia | lia | lia
    | cbn; lia].
Defined.

Lemma simple_loop_ok (to st : Z) (sc ec : bytes) (evs : list event) :
  forall idata scr t d rest,
  simple_loop to st sc ec idata scr t evs = (Ok d, rest) ->
  exists pre m, evs = pre ++ rest /\ Forall (fun ev => is_recv ev = true) pre /\
    t + total_delay pre - st <= to /\
    d = idata ++ (if scr then [] else sc) ++ m ++ ec.
Proof.
  induction evs as [|ev evs IH]; intros idata scr t d rest H; [discriminate |].
  destruct ev as [dl b | dl]; cbn in H; [| discriminate].
  destruct (t + dl - st >? to) eqn:Ht; [discriminate |].
  rewrite Z.gtb_ltb in Ht. apply Z.ltb_ge in Ht.
  destruct scr; cbn [negb] in H.
  - destruct (bytes_eqb b ec) eqn:He.
    + inversion H; subst. apply bytes_eqb_eq in He; subst.
      exists [Recv dl ec], []. cbn. repeat split; auto; lia.
    + apply IH in H as (pre & m & -> & Hr & Hw & ->).
      exists (Recv dl b :: pre), (b ++ m). rewrite total_delay_cons.
      repeat split; [constructor; auto | cbn [ev_delay]; lia | cbn [app]; now rewrite <- !app_assoc].
  - destruct (bytes_eqb b sc) eqn:Hs;
      apply IH in H as (pre & m & -> & Hr & Hw & ->).
    + apply bytes_eqb_eq in Hs; subst.
      exists (Recv dl sc :: pre), m. rewrite total_delay_cons.
      repeat split; [constructor; auto | cbn [ev_delay]; lia | cbn [app]; now rewrite <- !app_assoc].
    + exists (Recv dl b :: pre), m. rewrite total_delay_cons.
      repeat split; [constructor; auto | cbn [ev_delay]; lia].
Qed.

(** Whenever [simple_read] returns data, the data begins with the start
    bytes and ends with the end bytes, it was received by successful
    receives only, the events consumed are a prefix of the input, and
    their delays add up to at most [self.timeout]: the deadline covers the
    whole call, not a block. *)
Theorem simple_read_ok_shape (self : transport) (s e : str_or_bytes) (timeout : option Z)
  (t0 : Z) (evs : list event) (d : bytes) (rest : list event) :
  simple_read self s e timeout t0 evs = (Ok d, rest) ->
  exists pre m, evs = pre ++ rest /\ Forall (fun ev => is_recv ev = true) pre /\
    total_delay pre <= tr_timeout self /\
    d = ensure_bytes s ++ m ++ ensure_bytes e.
Proof.
  unfold simple_read. intros H.
  apply simple_loop_ok in H as (pre & m & Hevs & Hr & Hw & Hd).
  exists pre, m. repeat split; auto; lia.
Qed.

Lemma simple_read_ok_shape_witness :
  exists pre m, timed 0 (ascii_bytes "junk/hello!more") = pre ++ timed 0 (ascii_bytes "more") /\
    Forall (fun ev => is_recv ev = true) pre /\
    total_delay pre <= tr_timeout (Transport 30) /\
    [47; 104; 101; 108; 108; 111; 33] = ensure_bytes (PyStr "/") ++ m ++ ensure_bytes (PyStr "!").
Proof.
  apply (simple_read_ok_shape (Transport 30) (PyStr "/") (PyStr "!") None 0).
  reflexivity.
Defined.

(** A receive that can return at most one byte, as [self.recv(1)] does. *)
Definition recv1 (ev : event) : Prop :=
  match ev with Recv _ b => (length b <= 1)%nat | RecvErr _ => True end.

Lemma simple_loop_ok_delims (to st : Z) (sc ec : bytes) (evs : list event) :
  forall idata scr t d rest,
  Forall recv1 evs -> simple_loop to st sc ec idata scr t evs = (Ok d, rest) ->
  (length ec <= 1)%nat /\ (scr = false -> (length sc <= 1)%nat).
Proof.
  induction evs as [|ev evs IH]; intros idata scr t d rest Hf H; [discriminate |].
  inversion Hf as [|? ? Hev Hf']; subst.
  destruct ev as [dl b | dl]; cbn in H, Hev; [| discriminate].
  destruct (t + dl - st >? to); [discriminate |].
  destruct scr; cbn [negb] in H.
  - destruct (bytes_eqb b ec) eqn:He.
    + apply bytes_eqb_eq in He; subst. split; [exact Hev | discriminate].
    + apply IH in H as [H1 _]; auto. split; [exact H1 | discriminate].
  - destruct (bytes_eqb b sc) eqn:Hs.
    + apply bytes_eqb_eq in Hs; subst. apply IH in H as [H1 _]; auto.
    + apply IH in H as [H1 H2]; auto.
Qed.

(** [simple_read] compares every single-byte receive with the whole start
    and end markers: with a marker of two or more bytes it never returns
    data, whatever arrives. *)
Theorem simple_read_long_marker_never_ok (self : transport) (s e : str_or_bytes)
  (timeout : option Z) (t0 : Z) (evs : list event) (d : bytes) (rest : list event) :
  Forall recv1 evs ->
  (2 <= length (ensure_bytes s))%nat \/ (2 <= length (ensure_bytes e))%nat ->
  simple_read self s e timeout t0 evs <> (Ok d, rest).
Proof.
  intros Hf Hl H. unfold simple_read in H.
  apply simple_loop_ok_delims in H as [H1 H2]; auto.
  specialize (H2 eq_refl). lia.
Qed.

Lemma simple_read_long_marker_never_ok_witness :
  simple_read (Transport 30) (PyStr "/?") (PyStr "!") None 0
    (timed 0 (ascii_bytes "/?hello!")) <> (Ok (ascii_bytes "/?hello!"), []).
Proof.
  apply simple_read_long_marker_never_ok.
  - cbn. repeat constructor.
  - left. cbn. lia.
Defined.

(** ** Empty receives in [read] *)

(** A receive that returns no byte (a serial read that ran into the port's
    own timeout) only advances the clock of the inner loop: it is neither a
    start nor an end byte and adds nothing to the block. *)
Theorem read_empty_recv_only_time (to : Z) (s : rstate) (d : Z) (evs : list event) :
  ph s = Scanning -> now s + d - start_time s <= to ->
  run to s (Recv d [] :: evs)
  = run to (set_scan s (in_data s) (start_char_received s) (start_char s) (now s + d)) evs.
Proof.
  intros Hp Hw. rewrite run_cons. unfold step. rewrite Hp, gtb_false by exact Hw.
  destruct (start_char_received s); cbn [negb py_in existsb bytes_eqb orb start_chars end_chars];
    rewrite ?app_nil_r; reflexivity.
Qed.

Lemma read_empty_recv_only_time_witness :
  run 10 (read_init 0) (Recv 4 [] :: tevs [(1, STX); (1, 65); (1, ETX); (1, 66)])
  = run 10 (set_scan (read_init 0) [] false None 4)
      (tevs [(1, STX); (1, 65); (1, ETX); (1, 66)]).
Proof. apply (read_empty_recv_only_time 10 (read_init 0)); cbn; [reflexivity | lia]. Defined.

(** ** Transport life cycle *)

(** [SerialTransport.disconnect] and [TcpTransport.disconnect] on an open
    transport: the port or socket is closed once and dropped, after which a
    second disconnect, a send and a receive all raise [TransportError]
    without touching the devices. *)
Theorem disconnect_then_closed :
  (forall (t : serial_transport) (p : serial_port) (w : world) (data : bytes) (chars : Z),
     port t = Some p ->
     let '(r, t', w') := disconnect t w in
     r = PyOk tt /\ port t' = None /\ io w' = io w ++ [SerialClose] /\
     rx_serial w' = rx_serial w /\
     disconnect t' w' = (PyRaise TransportError, t', w') /\
     send t' data w' = (PyRaise TransportError, t', w') /\
     recv t' chars w' = (PyRaise TransportError, t', w'))
  /\ (forall (t : tcp_transport) (h : socket_handle) (w : world) (data : bytes) (chars : Z),
     socket t = Some h ->
     let '(r, t', w') := disconnect t w in
     r = PyOk tt /\ socket t' = None /\ io w' = io w ++ [SockClose] /\
     rx_sock w' = rx_sock w /\
     disconnect t' w' = (PyRaise TransportError, t', w') /\
     send t' data w' = (PyRaise TransportError, t', w') /\
     recv t' chars w' = (PyRaise TransportError, t', w')).
Proof.
  split.
  - intros t p w data chars Hp. cbn. unfold serial_disconnect. rewrite Hp. cbn.
    repeat split.
  - intros t h w data chars Hs. cbn. unfold tcp_disconnect. rewrite Hs. cbn.
    repeat split.
Qed.

Lemma disconnect_then_closed_witness :
  (let '(r, t', w') := disconnect (SerialTransport "/dev/ttyUSB0"%string 10 (Some (SerialPort 300 5)))
                          (World [] [[65]] [] []) in
   r = PyOk tt /\ port t' = None /\ io w' = [] ++ [SerialClose] /\
   rx_serial w' = [[65]] /\
   disconnect t' w' = (PyRaise TransportError, t', w') /\
   send t' [6] w' = (PyRaise TransportError, t', w') /\
   recv t' 1 w' = (PyRaise TransportError, t', w'))
  /\ (let '(r, t', w') := disconnect (TcpTransport ("meter"%string, 4059) 30 (Some (SocketHandle 30)))
                             (World [] [] [SockData [65]] []) in
   r = PyOk tt /\ socket t' = None /\ io w' = [] ++ [SockClose] /\
   rx_sock w' = [SockData [65]] /\
   disconnect t' w' = (PyRaise TransportError, t', w') /\
   send t' [6] w' = (PyRaise TransportError, t', w') /\
   recv t' 1 w' = (PyRaise TransportError, t', w')).
Proof.
  destruct disconnect_then_closed as [H1 H2]. split.
  - exact (H1 (SerialTransport "/dev/ttyUSB0"%string 10 (Some (SerialPort 300 5)))
             (SerialPort 300 5) (World [] [[65]] [] []) [6] 1 eq_refl).
  - exact (H2 (TcpTransport ("meter"%string, 4059) 30 (Some (SocketHandle 30)))
             (SocketHandle 30) (World [] [] [SockData [65]] []) [6] 1 eq_refl).
Defined.


(** Successive [switch_baudrate] calls, stopping at the first that raises. *)
Fixpoint switch_baudrates {T} `{TransportOps T} (self : T) (bauds : list Z) (w : world)
  : pyres unit * T * world :=
  match bauds with
  | [] => (PyOk tt, self, w)
  | b :: bs =>
    match switch_baudrate self b w with
    | (PyOk _, self', w') => switch_baudrates self' bs w'
    | r => r
    end
  end.




